(** * The playback example of node-ari-client, embedded and verified

    [examples/playback.js] connects to an Asterisk REST Interface server,
    waits for a channel to enter the Stasis application, answers it, plays a
    demo sound and lets DTMF digits drive the playback.  The script is a tree
    of nested callbacks.  Here every function literal of the script becomes
    one definition in a small state monad, every closure becomes a
    constructor carrying the variables it captures, and the client library
    together with the Node runtime becomes a world that records the calls the
    script makes and hands completions and events back to it.

    Arguments have the types the documentation blocks of the script give
    them: [ari] is a client, [incoming] and [channel] are channels,
    [playback] is a playback; [err] is an error object or [null], and no
    function of the script ever looks at it.  An event is an object whose
    [digit] field may be absent. *)

From Stdlib Require Import Ascii.
From stdpp Require Import gmap strings list.

Local Open Scope string_scope.
Local Open Scope list_scope.

(** ** Values the script handles *)

(** A channel is known to the script through its resource id. *)
Definition channel : Type := string.

(** A playback handle, as returned by [ari.Playback()]. *)
Inductive playback : Type := PlaybackHandle (id : nat).

(** The connected client, the [ari] argument of the ready callback. *)
Inductive client : Type := Client (url : string).

(** The [err] argument of a callback is an error object or [null];
    [option error] with [None] for [null]. *)
Inductive error : Type :=
| ConnectionError
| RequestError (status : Z) (reason : string)
| Timeout
| SessionClosed
| InvalidArgument
| InvalidState
| UnknownApplication.

(** An event object: its type and its type-specific fields. *)
Record event : Type := Event {
  ev_type : string;
  ev_fields : gmap string string
}.

(** [event.digit]: [None] stands for [undefined]. *)
Definition event_digit (e : event) : option string := ev_fields e !! "digit".

#[global] Instance playback_eq_dec : EqDecision playback.
Proof. solve_decision. Defined.
#[global] Instance client_eq_dec : EqDecision client.
Proof. solve_decision. Defined.
#[global] Instance error_eq_dec : EqDecision error.
Proof. solve_decision. Defined.

(** ** Closures

    One constructor per function literal of the script, with the variables
    the literal captures from its enclosing scopes.  They are grouped by the
    arguments the library passes them. *)

(** [function (err, ari)], lines 31-130. *)
Inductive connectFn : Type := ConnectFn.

(** [function (event, incoming)], lines 45-69, and
    [function (event, channel)], lines 96-125. *)
Inductive eventFn : Type :=
| StasisStartFn (ari : client)
| DtmfFn (playback : playback) (incoming : channel).

(** [function (err)]: lines 56-68, the six empty literals of lines 102-117,
    and lines 118-120. *)
Inductive errFn : Type :=
| ChannelAnswerFn (ari : client) (incoming : channel)
| ControlDoneFn
| HangupDoneFn.

(** [function (err, playback)], lines 64-66. *)
Inductive playFn : Type := PlayDoneFn (incoming : channel).

Inductive closure : Type :=
| OfConnect (f : connectFn)
| OfEvent (f : eventFn)
| OfErr (f : errFn)
| OfPlay (f : playFn).

(** ** Calls the script makes into the library and the runtime *)

Inductive call : Type :=
| Connect (url user secret : string) (cb : connectFn)
| Once (type : string) (cb : eventFn)
| Start (app : string)
| Answer (ch : channel) (cb : errFn)
| NewPlayback (pb : playback)
| Play (ch : channel) (media : string) (pb : playback) (cb : playFn)
| On (ch : channel) (type : string) (cb : eventFn)
| Control (pb : playback) (operation : string) (cb : errFn)
| Hangup (ch : channel) (cb : errFn)
| ConsoleError (line : string)
| ProcessExit (code : Z).

(** The history of a run: calls made by the script, and closures of the
    script entered by the library. *)
Inductive entry : Type :=
| Called (c : call)
| Invoked (f : closure).

#[global] Instance connectFn_eq_dec : EqDecision connectFn.
Proof. solve_decision. Defined.
#[global] Instance eventFn_eq_dec : EqDecision eventFn.
Proof. solve_decision. Defined.
#[global] Instance errFn_eq_dec : EqDecision errFn.
Proof. solve_decision. Defined.
#[global] Instance playFn_eq_dec : EqDecision playFn.
Proof. solve_decision. Defined.
#[global] Instance closure_eq_dec : EqDecision closure.
Proof. solve_decision. Defined.
#[global] Instance call_eq_dec : EqDecision call.
Proof. solve_decision. Defined.
#[global] Instance entry_eq_dec : EqDecision entry.
Proof. solve_decision. Defined.

(** ** The world *)

(** A listener registration: [l_scope] is [None] for a listener on the
    client and [Some ch] for one on the channel handle [ch]. *)
Record listener : Type := Listener {
  l_type : string;
  l_scope : option channel;
  l_once : bool;
  l_fn : eventFn
}.

Record world : Type := World {
  trace : list entry;         (* oldest first *)
  pending : list call;        (* requests awaiting their completion *)
  listeners : list listener;  (* in registration order *)
  allocated : nat;            (* playback handles created so far *)
  apps : list string;         (* application names started *)
  stderr : list string;
  exit_status : option Z      (* [Some c] once [process.exit(c)] ran *)
}.

Definition empty_world : world :=
  World [] [] [] 0 [] [] None.

Definition log (e : entry) (w : world) : world :=
  World (trace w ++ [e]) (pending w) (listeners w) (allocated w) (apps w)
        (stderr w) (exit_status w).

Definition set_pending (p : list call) (w : world) : world :=
  World (trace w) p (listeners w) (allocated w) (apps w) (stderr w)
        (exit_status w).

Definition set_listeners (ls : list listener) (w : world) : world :=
  World (trace w) (pending w) ls (allocated w) (apps w) (stderr w)
        (exit_status w).

Definition set_allocated (n : nat) (w : world) : world :=
  World (trace w) (pending w) (listeners w) n (apps w) (stderr w)
        (exit_status w).

Definition set_apps (a : list string) (w : world) : world :=
  World (trace w) (pending w) (listeners w) (allocated w) a (stderr w)
        (exit_status w).

Definition set_stderr (s : list string) (w : world) : world :=
  World (trace w) (pending w) (listeners w) (allocated w) (apps w) s
        (exit_status w).

Definition set_exit_status (c : option Z) (w : world) : world :=
  World (trace w) (pending w) (listeners w) (allocated w) (apps w)
        (stderr w) c.

(** ** The monad of the script

    A computation transforms the world and either returns a value or never
    returns because the process was terminated ([None]). *)

Definition M (A : Type) : Type := world → option A * world.

#[global] Instance M_ret : MRet M := λ A (a : A) w, (Some a, w).

#[global] Instance M_bind : MBind M := λ A B (k : A → M B) (m : M A) w,
  match m w with
  | (Some a, w') => k a w'
  | (None, w') => (None, w')
  end.

Definition run {A} (m : M A) (w : world) : world := snd (m w).

(** A call that leaves a request waiting for its completion. *)
Definition request (c : call) : M unit :=
  λ w, (Some tt, set_pending (pending w ++ [c]) (log (Called c) w)).

(** ** The library surface used by the script *)

(** [client.connect(url, user, secret, cb)] *)
Definition client_connect (url user secret : string) (cb : connectFn) : M unit :=
  request (Connect url user secret cb).

(** [ari.once(type, cb)] *)
Definition ari_once (ari : client) (type : string) (cb : eventFn) : M unit :=
  λ w, (Some tt,
        set_listeners (listeners w ++ [Listener type None true cb])
                      (log (Called (Once type cb)) w)).

(** Modelled from the spec: [ari.start(app)], of the client library, which
    is not under the verified source.  Section 4.5: [start] is idempotent,
    "re-registering already-registered names is a no-op". *)
Definition ari_start (ari : client) (app : string) : M unit :=
  λ w, (Some tt,
        set_apps (if bool_decide (app ∈ apps w) then apps w else apps w ++ [app])
                 (log (Called (Start app)) w)).

(** Modelled from the spec: [ari.Playback()], the Playback factory of the
    client library, which is not under the verified source.  Section 4.4: a
    "fresh Playback resource id" is allocated client-side and the handle is
    registered at once; [allocated] counts the handles registered so far. *)
Definition ari_Playback (ari : client) : M playback :=
  λ w, let pb := PlaybackHandle (allocated w) in
       (Some pb, set_allocated (S (allocated w)) (log (Called (NewPlayback pb)) w)).

(** [incoming.answer(cb)] *)
Definition channel_answer (ch : channel) (cb : errFn) : M unit :=
  request (Answer ch cb).

(** [incoming.play({media: media}, playback, cb)] *)
Definition channel_play (ch : channel) (media : string) (pb : playback)
    (cb : playFn) : M unit :=
  request (Play ch media pb cb).

(** [incoming.on(type, cb)] *)
Definition channel_on (ch : channel) (type : string) (cb : eventFn) : M unit :=
  λ w, (Some tt,
        set_listeners (listeners w ++ [Listener type (Some ch) false cb])
                      (log (Called (On ch type cb)) w)).

(** [playback.control({operation: operation}, cb)] *)
Definition playback_control (pb : playback) (operation : string) (cb : errFn)
    : M unit :=
  request (Control pb operation cb).

(** [incoming.hangup(cb)] *)
Definition channel_hangup (ch : channel) (cb : errFn) : M unit :=
  request (Hangup ch cb).

(** [console.error(line)] *)
Definition console_error (line : string) : M unit :=
  λ w, (Some tt, set_stderr (stderr w ++ [line]) (log (Called (ConsoleError line)) w)).

(** [process.exit(code)] does not return. *)
Definition process_exit (code : Z) : M unit :=
  λ w, (None, set_exit_status (Some code) (log (Called (ProcessExit code)) w)).

(** [String(v)] for the values [event.digit] can take. *)
Definition js_String (v : option string) : string :=
  match v with
  | Some s => s
  | None => "undefined"
  end.

(** [util.format(fmt, arg)] with one argument: the first [%s] of [fmt] is
    replaced by [String(arg)]; a format without [%s] gets the argument
    appended after a space. *)
Fixpoint util_format (fmt : string) (arg : option string) : string :=
  match fmt with
  | String "%"%char (String "s"%char rest) => js_String arg +:+ rest
  | String c rest => String c (util_format rest arg)
  | EmptyString => " " +:+ js_String arg
  end.

(** [digit === lit], the comparison a [case] label makes. *)
Definition strict_eq (v : option string) (lit : string) : bool :=
  match v with
  | Some s => String.eqb s lit
  | None => false
  end.

(** ** The script *)

(** [function(err) {}], the callback of every [control] call. *)
Definition controlCallback (err : option error) : M unit := mret tt.

(** [function (err) { process.exit(0); }], lines 118-120. *)
Definition hangupCallback (err : option error) : M unit := process_exit 0%Z.

(** Lines 96-125. *)
Definition channelDtmfReceivedCallback (playback : playback) (incoming : channel)
    (event : event) (channel : channel) : M unit :=
  let digit := event_digit event in
  if strict_eq digit "5" then
    playback_control playback "pause" ControlDoneFn
  else if strict_eq digit "8" then
    playback_control playback "unpause" ControlDoneFn
  else if strict_eq digit "4" then
    playback_control playback "reverse" ControlDoneFn
  else if strict_eq digit "6" then
    playback_control playback "forward" ControlDoneFn
  else if strict_eq digit "2" then
    playback_control playback "restart" ControlDoneFn
  else if strict_eq digit "#" then
    playback_control playback "stop" ControlDoneFn;;
    channel_hangup incoming HangupDoneFn
  else
    console_error (util_format "Unknown DTMF %s" digit).

(** Lines 82-126. *)
Definition registerDtmfListeners (err : option error) (playback : playback)
    (incoming : channel) : M unit :=
  channel_on incoming "ChannelDtmfReceived" (DtmfFn playback incoming).

(** Lines 64-66: the [playback] passed on is the callback's own argument,
    which shadows the variable of line 58. *)
Definition playCallback (incoming : channel) (err : option error)
    (playback : playback) : M unit :=
  registerDtmfListeners err playback incoming.

(** Lines 56-68. *)
Definition channelAnswerCallback (ari : client) (incoming : channel)
    (err : option error) : M unit :=
  playback ← ari_Playback ari;
  channel_play incoming "sound:demo-congrats" playback (PlayDoneFn incoming).

(** Lines 45-69. *)
Definition stasisStartCallback (ari : client) (event : event)
    (incoming : channel) : M unit :=
  channel_answer incoming (ChannelAnswerFn ari incoming).

(** Lines 31-130. *)
Definition connectCallback (err : option error) (ari : client) : M unit :=
  ari_once ari "StasisStart" (StasisStartFn ari);;
  ari_start ari "playback-example".

(** Line 22: the top level of the script. *)
Definition main : M unit :=
  client_connect "http://ari.js:8088" "user" "secret" ConnectFn.

(** ** The library and the server, as the script meets them

    The client library itself ([lib/] of the repository) is not part of the
    verified source.  What follows fixes the contract the script relies on:
    which closure is entered, with which arguments, and when. *)

Definition invoke_connect (f : connectFn) (err : option error) (ari : client)
    : M unit :=
  match f with
  | ConnectFn => connectCallback err ari
  end.

Definition invoke_event (f : eventFn) (e : event) (ch : channel) : M unit :=
  match f with
  | StasisStartFn ari => stasisStartCallback ari e ch
  | DtmfFn playback incoming => channelDtmfReceivedCallback playback incoming e ch
  end.

Definition invoke_err (f : errFn) (err : option error) : M unit :=
  match f with
  | ChannelAnswerFn ari incoming => channelAnswerCallback ari incoming err
  | ControlDoneFn => controlCallback err
  | HangupDoneFn => hangupCallback err
  end.

Definition invoke_play (f : playFn) (err : option error) (pb : playback)
    : M unit :=
  match f with
  | PlayDoneFn incoming => playCallback incoming err pb
  end.

(** Entering a closure of the script is recorded in the history. *)
Definition enter (f : closure) (m : M unit) (w : world) : world :=
  run m (log (Invoked f) w).

(** A listener hears an event when the type is the one it was registered
    for and, for a listener on a channel handle, the event is about that
    channel. *)
Definition matches (e : event) (ch : channel) (l : listener) : bool :=
  String.eqb (l_type l) (ev_type e) &&
  match l_scope l with
  | None => true
  | Some c => String.eqb c ch
  end.

Definition on_client (l : listener) : bool :=
  match l_scope l with
  | None => true
  | Some _ => false
  end.

(** Listeners run one after the other; nothing runs in a terminated
    process. *)
Fixpoint deliver (ls : list listener) (e : event) (ch : channel) (w : world)
    : world :=
  match ls with
  | [] => w
  | l :: ls' =>
      match exit_status w with
      | Some _ => w
      | None =>
          deliver ls' e ch
            (enter (OfEvent (l_fn l)) (invoke_event (l_fn l) e ch) w)
      end
  end.

(** Modelled from the spec: the Event Dispatcher of the client library,
    which is not under the verified source.  Section 4.3: every listener
    whose filter matches is invoked in registration order, listeners on the
    client before listeners on a resource handle.  A listener registered
    with [once] is dropped when the first event it matches is dispatched
    (the contract of Node's [EventEmitter.once], named by the comment of
    line 33). *)
Definition dispatch (e : event) (ch : channel) (w : world) : world :=
  let hit := List.filter (matches e ch) (listeners w) in
  let kept := List.filter (λ l, negb (matches e ch l && l_once l)) (listeners w) in
  deliver (List.filter on_client hit ++ List.filter (λ l, negb (on_client l)) hit)
          e ch (set_listeners kept w).

(** What the library hands to a completion callback. *)
Inductive response : Type :=
| Resp (err : option error)
| RespPlayback (err : option error) (pb : playback)
| RespClient (err : option error) (ari : client).

(** What reaches the script from outside: an event of the server about a
    channel, or the completion of the [n]-th outstanding request. *)
Inductive input : Type :=
| ServerEvent (e : event) (ch : channel)
| Complete (n : nat) (r : response).

Definition remove_pending (n : nat) (w : world) : world :=
  set_pending (delete n (pending w)) w.

(** Modelled from the spec: the Transport Session's outstanding-request
    table, which is not under the verified source.  Section 3: a pending
    operation is removed on its response, and its completion callback is
    invoked with the result or the error.  A completion that names no
    outstanding request, or carries a response of another shape than the
    request's callback takes, is dropped. *)
Definition complete (n : nat) (r : response) (w : world) : world :=
  match pending w !! n, r with
  | Some (Connect _ _ _ cb), RespClient err ari =>
      enter (OfConnect cb) (invoke_connect cb err ari) (remove_pending n w)
  | Some (Answer _ cb), Resp err
  | Some (Control _ _ cb), Resp err
  | Some (Hangup _ cb), Resp err =>
      enter (OfErr cb) (invoke_err cb err) (remove_pending n w)
  | Some (Play _ _ _ cb), RespPlayback err pb =>
      enter (OfPlay cb) (invoke_play cb err pb) (remove_pending n w)
  | _, _ => w
  end.

(** One turn of the event loop.  A terminated process takes no input. *)
Definition step (w : world) (i : input) : world :=
  match exit_status w with
  | Some _ => w
  | None =>
      match i with
      | ServerEvent e ch => dispatch e ch w
      | Complete n r => complete n r w
      end
  end.

(** The world once the top level of the script has run. *)
Definition boot : world := run main empty_world.

(** The world after the script has run and the inputs have arrived. *)
Definition run_inputs (ins : list input) : world := foldl step boot ins.

(** Modelled from the spec: the operations the facade accepts for
    [control]; the facade is not under the verified source.  Section 4.4:
    the operation is "enumerated to exactly {pause, unpause, reverse,
    forward, restart, stop}; unrecognized operation value fails with
    InvalidArgument before any network call". *)
Definition control_operations : list string :=
  ["pause"; "unpause"; "reverse"; "forward"; "restart"; "stop"].

(** Modelled from the spec: the check itself, with [None] for a request
    that passes on to the network. *)
Definition validate_control (operation : string) : option error :=
  if bool_decide (operation ∈ control_operations) then None
  else Some InvalidArgument.

(** Modelled from the spec: the connect operation as section 4.1 words it,
    [connect(serverAddress, credentials, appNames[])], which "establishes
    the event stream and registers interest in the given application
    names".  It is stated next to [client_connect] to compare the two. *)
Definition spec_connect (serverAddress : string) (credentials : string * string)
    (appNames : list string) (cb : connectFn) : M unit :=
  λ w, let c := Connect serverAddress credentials.1 credentials.2 cb in
       (Some tt,
        set_apps (apps w ++ appNames)
                 (set_pending (pending w ++ [c]) (log (Called c) w))).

(** ** Sample inputs *)

Definition dtmf (digit : string) : event :=
  Event "ChannelDtmfReceived" {[ "digit" := digit ]}.

Definition stasis_start : event := Event "StasisStart" ∅.

Definition sample_ari : client := Client "http://ari.js:8088".

(** A call is connected, answered and the sound is playing. *)
Definition call_set_up : list input :=
  [ Complete 0 (RespClient None sample_ari);
    ServerEvent stasis_start "c1";
    Complete 0 (Resp None);
    Complete 0 (RespPlayback None (PlaybackHandle 0)) ].

(** The caller pauses, presses an unassigned key, then ends with [#]. *)
Definition caller_session : list input :=
  call_set_up ++
  [ ServerEvent (dtmf "5") "c1";
    ServerEvent (dtmf "7") "c1";
    ServerEvent (dtmf "#") "c1" ].


(** A call whose answer has completed: the play request is outstanding. *)
Definition call_answered : list input :=
  [ Complete 0 (RespClient None sample_ari);
    ServerEvent stasis_start "c1";
    Complete 0 (Resp None) ].

(** ** Vocabulary of the properties *)


(** The digits that have a [case] label. *)
Definition assigned_digits : list string := ["5"; "8"; "4"; "6"; "2"; "#"].




(** C8 as the spec words it: the top level of the script does what
    [spec_connect] does when given the application name. *)
Definition connect_as_specified : Prop :=
  boot =
  run (spec_connect "http://ari.js:8088" ("user", "secret")
         ["playback-example"] ConnectFn) empty_world.

(** ** The shape of a history

    [admissible pre e] says when the entry [e] may follow the history
    [pre].  A history is [ordered] when each of its entries is admissible
    after the entries before it. *)

(** The closure a call hands over, if any. *)
Definition callback_of (c : call) : option closure :=
  match c with
  | Connect _ _ _ cb => Some (OfConnect cb)
  | Once _ cb | On _ _ cb => Some (OfEvent cb)
  | Answer _ cb | Control _ _ cb | Hangup _ cb => Some (OfErr cb)
  | Play _ _ _ cb => Some (OfPlay cb)
  | Start _ | NewPlayback _ | ConsoleError _ | ProcessExit _ => None
  end.

Definition admissible (pre : list entry) (e : entry) : Prop :=
  match e with
  | Invoked f => ∃ c, Called c ∈ pre ∧ callback_of c = Some f
  | Called (Connect _ _ _ _) => pre = []
  | Called (Once _ _) => ([Invoked (OfConnect ConnectFn)] `suffix_of` pre)
  | Called (Start app) =>
      app = "playback-example" ∧
      ∃ ari, ([Invoked (OfConnect ConnectFn);
              Called (Once "StasisStart" (StasisStartFn ari))] `suffix_of` pre)
  | Called (Answer ch cb) =>
      ∃ ari, cb = ChannelAnswerFn ari ch ∧
             ([Invoked (OfEvent (StasisStartFn ari))] `suffix_of` pre)
  | Called (NewPlayback pb) =>
      (Called (NewPlayback pb) ∉ pre) ∧
      ∃ ari ch, ([Invoked (OfErr (ChannelAnswerFn ari ch))] `suffix_of` pre)
  | Called (Play ch media pb cb) =>
      cb = PlayDoneFn ch ∧
      ∃ ari, ([Invoked (OfErr (ChannelAnswerFn ari ch));
              Called (NewPlayback pb)] `suffix_of` pre)
  | Called (On ch type cb) =>
      type = "ChannelDtmfReceived" ∧
      ∃ pb, cb = DtmfFn pb ch ∧ ([Invoked (OfPlay (PlayDoneFn ch))] `suffix_of` pre)
  | Called (Control pb operation cb) =>
      cb = ControlDoneFn ∧ (operation ∈ control_operations) ∧
      ∃ ch, ([Invoked (OfEvent (DtmfFn pb ch))] `suffix_of` pre)
  | Called (Hangup ch cb) =>
      cb = HangupDoneFn ∧
      ∃ pb, ([Invoked (OfEvent (DtmfFn pb ch));
             Called (Control pb "stop" ControlDoneFn)] `suffix_of` pre)
  | Called (ConsoleError line) =>
      ∃ pb ch, ([Invoked (OfEvent (DtmfFn pb ch))] `suffix_of` pre)
  | Called (ProcessExit code) =>
      code = 0%Z ∧ ([Invoked (OfErr HangupDoneFn)] `suffix_of` pre)
  end.

Definition ordered (t : list entry) : Prop :=
  ∀ pre e post, t = pre ++ e :: post → admissible pre e.

(** ** The stages of a run *)

Inductive stage : Type :=
| Booting
| Waiting (ari : client)
| Answering (ari : client) (ch : channel)
| Playing (ch : channel)
| Serving (ch : channel) (pb : playback).

Definition is_start (e : entry) : bool :=
  match e with
  | Invoked (OfEvent (StasisStartFn _)) => true
  | _ => false
  end.

(** How often the handler of [StasisStart] was entered. *)
Definition starts (t : list entry) : nat := length (List.filter is_start t).

Definition awaits_control (c : call) : Prop :=
  match c with
  | Control _ _ _ | Hangup _ _ => True
  | _ => False
  end.

Definition in_stage (s : stage) (w : world) : Prop :=
  match s with
  | Booting =>
      pending w = [Connect "http://ari.js:8088" "user" "secret" ConnectFn] ∧
      listeners w = [] ∧ starts (trace w) = 0 ∧ apps w = []
  | Waiting ari =>
      pending w = [] ∧
      listeners w = [Listener "StasisStart" None true (StasisStartFn ari)] ∧
      starts (trace w) = 0 ∧ apps w = ["playback-example"]
  | Answering ari ch =>
      pending w = [Answer ch (ChannelAnswerFn ari ch)] ∧
      listeners w = [] ∧ starts (trace w) = 1 ∧ apps w = ["playback-example"]
  | Playing ch =>
      (∃ pb, pending w = [Play ch "sound:demo-congrats" pb (PlayDoneFn ch)]) ∧
      listeners w = [] ∧ starts (trace w) = 1 ∧ apps w = ["playback-example"]
  | Serving ch pb =>
      Forall awaits_control (pending w) ∧
      listeners w =
        [Listener "ChannelDtmfReceived" (Some ch) false (DtmfFn pb ch)] ∧
      starts (trace w) = 1 ∧ apps w = ["playback-example"]
  end.

(** What holds of every world a run can reach. *)
Record consistent (w : world) : Prop := Consistent {
  con_ordered : ordered (trace w);
  con_pending : ∀ c, c ∈ pending w → Called c ∈ trace w;
  con_listeners : ∀ l, l ∈ listeners w →
    ∃ c, Called c ∈ trace w ∧ callback_of c = Some (OfEvent (l_fn l));
  con_allocated : ∀ k,
    Called (NewPlayback (PlaybackHandle k)) ∈ trace w → k < allocated w;
  con_stage : ∃ s, in_stage s w
}.

(** Whether an input is the completion of an outstanding hangup. *)
Definition completes_hangup (w : world) (i : input) : bool :=
  match i with
  | Complete n (Resp _) =>
      match pending w !! n with
      | Some (Hangup _ _) => true
      | _ => false
      end
  | _ => false
  end.

(** ** Vocabulary of the further properties *)

(** The DTMF listener on a channel, for a playback. *)
Definition dtmf_listener (ch : channel) (pb : playback) : listener :=
  Listener "ChannelDtmfReceived" (Some ch) false (DtmfFn pb ch).

(** The handler of the first [StasisStart]. *)
Definition start_listener (ari : client) : listener :=
  Listener "StasisStart" None true (StasisStartFn ari).


(** One turn of a running, consistent world: which closure is entered. *)
Inductive turn (w : world) : input → world → Prop :=
| turn_idle i : turn w i w
| turn_ready err ari :
    in_stage Booting w →
    turn w (Complete 0 (RespClient err ari))
      (enter (OfConnect ConnectFn) (connectCallback err ari) (remove_pending 0 w))
| turn_start ari e ch :
    in_stage (Waiting ari) w → ev_type e = "StasisStart" →
    turn w (ServerEvent e ch)
      (enter (OfEvent (StasisStartFn ari)) (stasisStartCallback ari e ch)
         (set_listeners [] w))
| turn_answered ari ch err :
    in_stage (Answering ari ch) w →
    turn w (Complete 0 (Resp err))
      (enter (OfErr (ChannelAnswerFn ari ch)) (channelAnswerCallback ari ch err)
         (remove_pending 0 w))
| turn_played ch err pb :
    in_stage (Playing ch) w →
    turn w (Complete 0 (RespPlayback err pb))
      (enter (OfPlay (PlayDoneFn ch)) (playCallback ch err pb)
         (remove_pending 0 w))
| turn_dtmf ch pb e :
    in_stage (Serving ch pb) w → ev_type e = "ChannelDtmfReceived" →
    turn w (ServerEvent e ch)
      (enter (OfEvent (DtmfFn pb ch)) (channelDtmfReceivedCallback pb ch e ch) w)
| turn_controlled ch pb n pb' operation err :
    in_stage (Serving ch pb) w →
    pending w !! n = Some (Control pb' operation ControlDoneFn) →
    turn w (Complete n (Resp err))
      (enter (OfErr ControlDoneFn) (controlCallback err) (remove_pending n w))
| turn_hung_up ch pb n ch' err :
    in_stage (Serving ch pb) w →
    pending w !! n = Some (Hangup ch' HangupDoneFn) →
    turn w (Complete n (Resp err))
      (enter (OfErr HangupDoneFn) (hangupCallback err) (remove_pending n w)).


(** The channel a call is made on. *)
Definition call_channel (c : call) : option channel :=
  match c with
  | Answer ch _ | Play ch _ _ _ | On ch _ _ | Hangup ch _ => Some ch
  | _ => None
  end.

Definition entry_channel (e : entry) : option channel :=
  match e with
  | Called c => call_channel c
  | Invoked _ => None
  end.

(** The channels of the calls of a history, in order. *)
Definition channels_used (t : list entry) : list channel := omap entry_channel t.

Definition entry_controlled (e : entry) : option playback :=
  match e with
  | Called (Control pb _ _) => Some pb
  | _ => None
  end.

(** The playbacks the controls of a history were sent to, in order. *)
Definition controlled (t : list entry) : list playback := omap entry_controlled t.

Definition is_answer (c : call) : bool :=
  match c with Answer _ _ => true | _ => false end.
Definition is_new_playback (c : call) : bool :=
  match c with NewPlayback _ => true | _ => false end.
Definition is_play (c : call) : bool :=
  match c with Play _ _ _ _ => true | _ => false end.
Definition is_on (c : call) : bool :=
  match c with On _ _ _ => true | _ => false end.

Definition called_with (P : call → bool) (e : entry) : bool :=
  match e with
  | Called c => P c
  | Invoked _ => false
  end.

(** How many calls of a kind a history holds. *)
Definition calls (P : call → bool) (t : list entry) : nat :=
  length (List.filter (called_with P) t).

(** Answers, playbacks created, plays and listener registrations. *)
Definition tally (t : list entry) : nat * nat * nat * nat :=
  (calls is_answer t, calls is_new_playback t, calls is_play t, calls is_on t).

(** A line the listener writes for a digit without a [case] label. *)
Definition unknown_line (line : string) : Prop :=
  ∃ d, line = "Unknown DTMF " +:+ d.

Definition stage_profile (s : stage) (w : world) : Prop :=
  match s with
  | Booting | Waiting _ =>
      channels_used (trace w) = [] ∧ controlled (trace w) = [] ∧
      tally (trace w) = (0, 0, 0, 0) ∧ exit_status w = None
  | Answering _ ch =>
      channels_used (trace w) = [ch] ∧ controlled (trace w) = [] ∧
      tally (trace w) = (1, 0, 0, 0) ∧ exit_status w = None
  | Playing ch =>
      channels_used (trace w) = [ch; ch] ∧ controlled (trace w) = [] ∧
      tally (trace w) = (1, 1, 1, 0) ∧ exit_status w = None
  | Serving ch pb =>
      Forall (eq ch) (channels_used (trace w)) ∧
      Forall (eq pb) (controlled (trace w)) ∧
      tally (trace w) = (1, 1, 1, 1) ∧ True
  end.

(** More of what holds of every world a run can reach. *)
Record profile (w : world) : Prop := Profile {
  pro_once : ∀ type cb,
    Called (Once type cb) ∈ trace w →
    type = "StasisStart" ∧ ∃ ari, cb = StasisStartFn ari;
  pro_stderr : Forall unknown_line (stderr w);
  pro_stage : ∃ s, in_stage s w ∧ stage_profile s w
}.

(** A call made again: a request is left outstanding, a line is written. *)
Definition issue (c : call) : M unit :=
  match c with
  | ConsoleError line => console_error line
  | _ => request c
  end.

Definition issue_all (cs : list call) (w : world) : world :=
  foldl (λ w c, run (issue c) w) w cs.

Definition entry_call (e : entry) : option call :=
  match e with
  | Called c => Some c
  | Invoked _ => None
  end.

(** The calls the DTMF listener makes for an event, taken alone. *)
Definition dtmf_calls (playback : playback) (incoming : channel) (e : event)
    : list call :=
  omap entry_call
    (trace (run (channelDtmfReceivedCallback playback incoming e incoming)
              empty_world)).

(** A call that leaves a request outstanding. *)
Definition is_request (c : call) : bool :=
  match c with
  | ConsoleError _ => false
  | _ => true
  end.


(** Further sample inputs: the play completes with another playback than
    the one the script created, and the caller pauses. *)
Definition other_playback_session : list input :=
  call_answered ++
  [ Complete 0 (RespPlayback None (PlaybackHandle 7));
    ServerEvent (dtmf "5") "c1" ].


(** ** Tactics *)

(** Run the script and the library to the calls they make. *)
Ltac script :=
  unfold complete, dispatch, enter, run, remove_pending,
    invoke_connect, invoke_event, invoke_err, invoke_play,
    connectCallback, stasisStartCallback, channelAnswerCallback, playCallback,
    registerDtmfListeners, controlCallback, hangupCallback,
    client_connect, ari_once, ari_start, ari_Playback, channel_answer,
    channel_play, channel_on, playback_control, channel_hangup, console_error,
    process_exit, request, mbind, M_bind, mret, M_ret,
    set_pending, set_listeners, set_allocated, set_apps, set_stderr,
    set_exit_status, log;
  cbn.

Ltac in_trace :=
  rewrite ?elem_of_app, ?list_elem_of_singleton in *;
  intuition (subst; eauto; congruence).

(** The input changes nothing. *)
Ltac noop := split_and!; [assumption | done | reflexivity].

(** The input runs a closure: what is left to show is that the new world
    is consistent. *)
Ltac effect :=
  script;
  (split_and!;
   [split; simpl | done | simpl; rewrite <- ?app_assoc; by eexists]).

(** The entry [H] of an extended history is an old one or a new one. *)
Ltac once_cases H old :=
  rewrite ?elem_of_app, ?list_elem_of_singleton in H;
  repeat match type of H with _ ∨ _ => destruct H as [H|H] end;
  first [by apply old | discriminate H | injection H as -> ->; by eauto].

(** * Proofs *)

(** ** Histories *)

Lemma ordered_nil : ordered [].
Proof. intros pre e post H. by destruct pre. Qed.

Lemma ordered_snoc t e : ordered t → admissible t e → ordered (t ++ [e]).
Proof.
  intros Ht He pre e' post Heq.
  destruct post as [|x post _] using rev_ind.
  - apply app_inj_tail in Heq as [-> ->]. exact He.
  - change (e' :: post ++ [x]) with ((e' :: post) ++ [x]) in Heq.
    rewrite app_assoc in Heq. apply app_inj_tail in Heq as [-> _].
    by eapply Ht.
Qed.

Lemma ordered_prefix t s : ordered (t ++ s) → ordered t.
Proof.
  intros H pre e post ->. apply (H pre e (post ++ s)).
  by rewrite <- app_assoc.
Qed.

Lemma suffix_snoc1 {A} (t : list A) a : [a] `suffix_of` (t ++ [a]).
Proof. by exists t. Qed.

Lemma suffix_snoc2 {A} (t : list A) a b : [a; b] `suffix_of` ((t ++ [a]) ++ [b]).
Proof. exists t. by rewrite <- app_assoc. Qed.

Lemma starts_snoc t e :
  starts (t ++ [e]) = (starts t + if is_start e then 1 else 0)%nat.
Proof.
  unfold starts. rewrite List.filter_app, length_app. simpl.
  by destruct (is_start e).
Qed.

Lemma ordered_called t c :
  ordered t → Called c ∈ t → ∃ pre, admissible pre (Called c).
Proof.
  intros Ht Hc. apply list_elem_of_split in Hc as (pre & post & ->).
  exists pre. by eapply Ht.
Qed.


Create HintDb history.
#[local] Hint Resolve suffix_snoc1 suffix_snoc2 : history.

(** ** The DTMF listener *)

(** The three things the listener can do. *)
Lemma dtmf_cases playback incoming e ch w :
  (∃ op, op ∈ control_operations ∧
     channelDtmfReceivedCallback playback incoming e ch w =
       request (Control playback op ControlDoneFn) w)
  ∨ channelDtmfReceivedCallback playback incoming e ch w =
      (request (Control playback "stop" ControlDoneFn);;
       request (Hangup incoming HangupDoneFn)) w
  ∨ ∃ line, channelDtmfReceivedCallback playback incoming e ch w =
      console_error line w.
Proof.
  unfold channelDtmfReceivedCallback, playback_control, channel_hangup.
  repeat case_match; eauto;
    left; eexists; (split; [|reflexivity]); by repeat constructor.
Qed.

(** ** One turn of the event loop *)

Lemma listeners_logged_app (ls : list listener) t s :
  (∀ l, l ∈ ls → ∃ c, Called c ∈ t ∧ callback_of c = Some (OfEvent (l_fn l))) →
  ∀ l, l ∈ ls →
    ∃ c, Called c ∈ t ++ s ∧ callback_of c = Some (OfEvent (l_fn l)).
Proof.
  intros H l Hl. destruct (H l Hl) as (c & Hc & Hcb).
  exists c. split; [|done]. apply elem_of_app. by left.
Qed.

Lemma step_spec w i :
  consistent w → exit_status w = None →
  consistent (step w i) ∧
  exit_status (step w i) = (if completes_hangup w i then Some 0%Z else None) ∧
  trace w `prefix_of` trace (step w i).
Proof.
  intros Hcon Hexit. pose proof Hcon as [Hord Hpend Hlis Halloc [s Hs]].
  unfold step. rewrite Hexit.
  destruct w as [t p ls a ap se ex]; simpl in *; subst ex.
  destruct s; simpl in Hs; destruct Hs as (Hp & Hl & Hst & Happ); subst.
  - (* Booting: only the completion of connect does anything *)
    destruct i as [e ch|[|n] [err|err pb|err ari]]; try noop.
    effect.
    + repeat apply ordered_snoc; try assumption; simpl; eauto with history.
      eexists; split; [apply Hpend; left|done].
    + intros c Hc. by apply elem_of_nil in Hc.
    + intros l Hl. apply list_elem_of_singleton in Hl as ->.
      exists (Once "StasisStart" (StasisStartFn ari)). split; [in_trace|done].
    + intros k Hk. apply Halloc. in_trace.
    + exists (Waiting ari). simpl. by rewrite !starts_snoc, Hst.
  - (* Waiting: only a StasisStart event does anything *)
    destruct i as [e ch|n r]; [|by destruct r; noop].
    script. destruct (matches e ch _) eqn:Hm; cbn; [|noop].
    effect.
    + repeat apply ordered_snoc; try assumption; simpl; eauto with history.
      destruct (Hlis _ ltac:(left)) as (c & Hc1 & Hc2). eauto.
    + intros c Hc. in_trace.
    + intros l Hl. by apply elem_of_nil in Hl.
    + intros k Hk. apply Halloc. in_trace.
    + exists (Answering ari ch). simpl. by rewrite !starts_snoc, Hst.
  - (* Answering: only the completion of answer does anything *)
    destruct i as [e ch'|[|n] [err|err pb|err ari']]; try noop.
    effect.
    + repeat apply ordered_snoc; try assumption; simpl; eauto with history.
      * eexists; split; [apply Hpend; left|done].
      * split; [|eauto with history].
        intros Hin. assert (a < a); [|lia]. apply Halloc. in_trace.
    + intros c Hc. in_trace.
    + intros l Hl. by apply elem_of_nil in Hl.
    + intros k Hk.
      assert (Called (NewPlayback (PlaybackHandle k)) ∈ t ∨ k = a) as [H| ->]
        by in_trace; [|lia].
      apply Halloc in H. lia.
    + exists (Playing ch). simpl. rewrite !starts_snoc, Hst. simpl. eauto.
  - (* Playing: only the completion of play does anything *)
    destruct Hp as [pb0 ->].
    destruct i as [e ch'|[|n] [err|err pb|err ari']]; try noop.
    effect.
    + repeat apply ordered_snoc; try assumption; simpl; eauto 6 with history.
      eexists; split; [apply Hpend; left|done].
    + intros c Hc. by apply elem_of_nil in Hc.
    + intros l Hl. apply list_elem_of_singleton in Hl as ->.
      exists (On ch "ChannelDtmfReceived" (DtmfFn pb ch)). split; [in_trace|done].
    + intros k Hk. apply Halloc. in_trace.
    + exists (Serving ch pb). simpl. by rewrite !starts_snoc, Hst.
  - (* Serving *)
    destruct i as [e ch'|n r].
    + (* a DTMF event on the channel runs the listener *)
      script. destruct (matches e ch' _) eqn:Hm; cbn; [|noop].
      apply andb_true_iff in Hm as [_ Hm]. apply String.eqb_eq in Hm.
      simpl in Hm. subst ch'.
      assert (Hinv : admissible t (Invoked (OfEvent (DtmfFn pb ch)))).
      { destruct (Hlis _ ltac:(left)) as (c & Hc1 & Hc2). simpl. eauto. }
      unfold enter, run, log; cbn.
      match goal with |- context [channelDtmfReceivedCallback pb ch e ch ?W] =>
        destruct (dtmf_cases pb ch e ch W) as [(op & Hop & ->) | [-> | (line & ->)]]
      end; effect.
      * repeat apply ordered_snoc; try assumption; simpl.
        split_and!; eauto with history.
      * intros c Hc. in_trace.
      * rewrite <- app_assoc. by apply listeners_logged_app.
      * intros k Hk. apply Halloc. in_trace.
      * exists (Serving ch pb). simpl. rewrite !starts_snoc, Hst.
        split_and!; try done. apply Forall_app. split; [done|]. by repeat constructor.
      * repeat apply ordered_snoc; try assumption; simpl.
        -- split_and!; [done|by repeat constructor|eauto with history].
        -- eauto with history.
      * intros c Hc. in_trace.
      * rewrite <- !app_assoc. by apply listeners_logged_app.
      * intros k Hk. apply Halloc. in_trace.
      * exists (Serving ch pb). simpl. rewrite !starts_snoc, Hst.
        split_and!; try done. rewrite <- app_assoc.
        apply Forall_app. split; [done|]. by repeat constructor.
      * repeat apply ordered_snoc; try assumption; simpl; eauto with history.
      * intros c Hc. in_trace.
      * rewrite <- !app_assoc. by apply listeners_logged_app.
      * intros k Hk. apply Halloc. in_trace.
      * exists (Serving ch pb). simpl. by rewrite !starts_snoc, Hst.
    + (* a completion runs the callback of a control or of the hangup *)
      unfold complete, completes_hangup; simpl.
      destruct (p !! n) as [c|] eqn:Hn; [|by destruct r; noop].
      assert (Hc : c ∈ p) by (by eapply list_elem_of_lookup_2).
      pose proof (proj1 (Forall_forall _ _) Hp c Hc) as Haw.
      destruct (ordered_called t c Hord (Hpend c Hc)) as [pre Hadm].
      destruct c; simpl in Haw; try done; simpl in Hadm; destruct Hadm as [-> _];
        (destruct r as [err|err pb'|err ari]; [|noop..]); effect.
      * apply ordered_snoc; [done|]. simpl. eauto.
      * intros c Hc'. apply list_elem_of_delete_inv in Hc'. in_trace.
      * by apply listeners_logged_app.
      * intros k Hk. apply Halloc. in_trace.
      * exists (Serving ch pb). simpl. rewrite !starts_snoc, Hst.
        split_and!; try done. by apply Forall_delete.
      * repeat apply ordered_snoc; try assumption; simpl; eauto with history.
      * intros c Hc'. apply list_elem_of_delete_inv in Hc'. in_trace.
      * rewrite <- !app_assoc. by apply listeners_logged_app.
      * intros k Hk. apply Halloc. in_trace.
      * exists (Serving ch pb). simpl. rewrite !starts_snoc, Hst.
        split_and!; try done. by apply Forall_delete.
Qed.

(** ** Runs *)

(** The sample session, step by step. *)
Example caller_session_history :
  trace (run_inputs caller_session) =
    [Called (Connect "http://ari.js:8088" "user" "secret" ConnectFn);
     Invoked (OfConnect ConnectFn);
     Called (Once "StasisStart" (StasisStartFn sample_ari));
     Called (Start "playback-example");
     Invoked (OfEvent (StasisStartFn sample_ari));
     Called (Answer "c1" (ChannelAnswerFn sample_ari "c1"));
     Invoked (OfErr (ChannelAnswerFn sample_ari "c1"));
     Called (NewPlayback (PlaybackHandle 0));
     Called (Play "c1" "sound:demo-congrats" (PlaybackHandle 0) (PlayDoneFn "c1"));
     Invoked (OfPlay (PlayDoneFn "c1"));
     Called (On "c1" "ChannelDtmfReceived" (DtmfFn (PlaybackHandle 0) "c1"));
     Invoked (OfEvent (DtmfFn (PlaybackHandle 0) "c1"));
     Called (Control (PlaybackHandle 0) "pause" ControlDoneFn);
     Invoked (OfEvent (DtmfFn (PlaybackHandle 0) "c1"));
     Called (ConsoleError "Unknown DTMF 7");
     Invoked (OfEvent (DtmfFn (PlaybackHandle 0) "c1"));
     Called (Control (PlaybackHandle 0) "stop" ControlDoneFn);
     Called (Hangup "c1" HangupDoneFn)].
Proof. reflexivity. Qed.

Example caller_session_outstanding :
  pending (run_inputs caller_session) =
    [Control (PlaybackHandle 0) "pause" ControlDoneFn;
     Control (PlaybackHandle 0) "stop" ControlDoneFn;
     Hangup "c1" HangupDoneFn]
  ∧ stderr (run_inputs caller_session) = ["Unknown DTMF 7"]
  ∧ exit_status (run_inputs caller_session) = None.
Proof. by vm_compute. Qed.

(** A DTMF event about another channel does not reach the listener, and
    an event without a digit is reported as [undefined]. *)
Example other_channel_and_missing_digit :
  step (run_inputs call_set_up) (ServerEvent (dtmf "5") "c2")
    = run_inputs call_set_up
  ∧ stderr (step (run_inputs call_set_up)
              (ServerEvent (Event "ChannelDtmfReceived" ∅) "c1"))
    = ["Unknown DTMF undefined"].
Proof. by vm_compute. Qed.

Lemma step_exited w i code : exit_status w = Some code → step w i = w.
Proof. intros H. unfold step. by rewrite H. Qed.

Lemma step_consistent w i : consistent w → consistent (step w i).
Proof.
  intros Hcon. destruct (exit_status w) as [code|] eqn:Hexit.
  - by rewrite (step_exited w i code).
  - by apply step_spec.
Qed.


Lemma boot_consistent : consistent boot.
Proof.
  split; cbn.
  - apply (ordered_snoc []); [apply ordered_nil|done].
  - intros c Hc. apply list_elem_of_singleton in Hc as ->. by left.
  - intros l Hl. by apply elem_of_nil in Hl.
  - intros k Hk. apply list_elem_of_singleton in Hk. done.
  - by exists Booting.
Qed.

Lemma foldl_step_consistent ins w : consistent w → consistent (foldl step w ins).
Proof.
  revert w. induction ins as [|i ins IH]; intros w Hw; [done|].
  simpl. by apply IH, step_consistent.
Qed.


Lemma run_inputs_consistent ins : consistent (run_inputs ins).
Proof. apply foldl_step_consistent, boot_consistent. Qed.

Lemma run_inputs_snoc ins i : run_inputs (ins ++ [i]) = step (run_inputs ins) i.
Proof. unfold run_inputs. by rewrite foldl_snoc. Qed.

Lemma run_inputs_app ins ins' :
  run_inputs (ins ++ ins') = foldl step (run_inputs ins) ins'.
Proof. unfold run_inputs. by rewrite foldl_app. Qed.

Lemma run_inputs_ordered ins : ordered (trace (run_inputs ins)).
Proof. apply run_inputs_consistent. Qed.

(** A closure handed to [control] is the empty callback, one handed to
    [hangup] is the exiting one. *)
Lemma pending_callback w n c :
  consistent w → pending w !! n = Some c →
  match c with
  | Control _ _ cb => cb = ControlDoneFn
  | Hangup _ cb => cb = HangupDoneFn
  | Answer ch cb => ∃ ari, cb = ChannelAnswerFn ari ch
  | _ => True
  end.
Proof.
  intros Hcon Hn.
  assert (Hc : c ∈ pending w) by (by eapply list_elem_of_lookup_2).
  destruct (ordered_called _ c (con_ordered _ Hcon) (con_pending _ Hcon c Hc))
    as [pre Hadm].
  destruct c; simpl in Hadm; try done.
  - destruct Hadm as (ari & -> & _). eauto.
  - by destruct Hadm.
  - by destruct Hadm.
Qed.

(** ** The listener *)



Lemma strict_eq_false v lit : v ≠ Some lit → strict_eq v lit = false.
Proof.
  destruct v as [s|]; simpl; [|done].
  intros H. apply String.eqb_neq. congruence.
Qed.

Lemma string_app_empty (s : string) : s +:+ EmptyString = s.
Proof.
  induction s as [|c s IH]; [done|].
  change (String c (s +:+ EmptyString) = String c s). by rewrite IH.
Qed.

Lemma util_format_unknown v :
  util_format "Unknown DTMF %s" v = "Unknown DTMF " +:+ js_String v.
Proof. simpl. rewrite string_app_empty. reflexivity. Qed.

(** C9. When the digit of the event has no [case] label (the field may
    also be absent), the listener makes no request at all: it writes the one
    line [Unknown DTMF <digit>] to the error stream and returns, and the
    world is otherwise as it was. *)
Theorem unassigned_digit_only_logs playback incoming event channel w :
  (∀ d, d ∈ assigned_digits → event_digit event ≠ Some d) →
  invoke_event (DtmfFn playback incoming) event channel w =
    let line := "Unknown DTMF " +:+ js_String (event_digit event) in
    (Some tt, set_stderr (stderr w ++ [line]) (log (Called (ConsoleError line)) w)).
Proof.
  intros H. simpl. unfold channelDtmfReceivedCallback.
  rewrite !strict_eq_false by (apply H; by repeat constructor).
  by rewrite util_format_unknown.
Qed.

(** The digit 7 on a fresh world. *)
Lemma unassigned_digit_only_logs_witness :
  (∀ d, d ∈ assigned_digits → event_digit (dtmf "7") ≠ Some d) ∧
  invoke_event (DtmfFn (PlaybackHandle 0) "c1") (dtmf "7") "c1" empty_world =
    (Some tt,
     set_stderr (stderr empty_world ++ ["Unknown DTMF 7"])
                (log (Called (ConsoleError "Unknown DTMF 7")) empty_world)).
Proof.
  assert (H : ∀ d, d ∈ assigned_digits → event_digit (dtmf "7") ≠ Some d).
  { intros d Hd. unfold assigned_digits in Hd.
    repeat (apply elem_of_cons in Hd as [->|Hd]; [discriminate|]).
    by apply elem_of_nil in Hd. }
  split; [exact H|].
  exact (unassigned_digit_only_logs (PlaybackHandle 0) "c1" (dtmf "7") "c1"
           empty_world H).
Defined.

(** C2. Whatever inputs arrive, every [control] the script has issued
    carries one of the six enumerated operations, so the facade's validation
    lets it pass: the [InvalidArgument] outcome does not arise. *)
Theorem control_operations_enumerated ins pb operation cb :
  Called (Control pb operation cb) ∈ trace (run_inputs ins) →
  operation ∈ control_operations ∧
  validate_control operation = None ∧
  validate_control operation ≠ Some InvalidArgument.
Proof.
  intros Hin.
  destruct (ordered_called _ _ (run_inputs_ordered ins) Hin) as [pre Hadm].
  destruct Hadm as (_ & Hop & _).
  unfold validate_control. rewrite bool_decide_eq_true_2 by done. done.
Qed.

(** The pause of the sample session. *)
Lemma control_operations_enumerated_witness :
  Called (Control (PlaybackHandle 0) "pause" ControlDoneFn)
    ∈ trace (run_inputs caller_session) ∧
  "pause" ∈ control_operations ∧
  validate_control "pause" = None ∧
  validate_control "pause" ≠ Some InvalidArgument.
Proof.
  assert (H : Called (Control (PlaybackHandle 0) "pause" ControlDoneFn)
                ∈ trace (run_inputs caller_session)).
  { vm_compute. by repeat constructor. }
  split; [exact H|].
  exact (control_operations_enumerated caller_session (PlaybackHandle 0)
           "pause" ControlDoneFn H).
Defined.

(** The request whose completion enters a callback was made before. *)
Lemma invoked_err_origin t pre f post :
  ordered t → t = pre ++ Invoked (OfErr f) :: post →
  match f with
  | ChannelAnswerFn ari ch => Called (Answer ch f) ∈ pre
  | ControlDoneFn => ∃ pb operation, Called (Control pb operation f) ∈ pre
  | HangupDoneFn => ∃ ch, Called (Hangup ch f) ∈ pre
  end.
Proof.
  intros Ht ->. destruct (Ht _ _ _ eq_refl) as (c & Hc & Hcb).
  apply ordered_prefix in Ht.
  destruct (ordered_called _ _ Ht Hc) as [pre' Hadm].
  destruct c; simpl in Hcb; try discriminate;
    injection Hcb as ->; simpl in Hadm.
  - destruct Hadm as (ari & -> & _). done.
  - destruct Hadm as (-> & _). eauto.
  - destruct Hadm as (-> & _). eauto.
Qed.







(** ** The application-entry flow *)


Lemma matches_start e ch f :
  matches e ch (Listener "StasisStart" None true f)
  = bool_decide (ev_type e = "StasisStart").
Proof.
  unfold matches. cbn [l_type l_scope]. rewrite andb_true_r.
  destruct (String.eqb_spec "StasisStart" (ev_type e)) as [<-|H].
  - by rewrite bool_decide_eq_true_2.
  - by rewrite bool_decide_eq_false_2.
Qed.









Lemma answer_and_play_not_both_pending w ch cb media pb cb' :
  consistent w →
  ¬ (Answer ch cb ∈ pending w ∧ Play ch media pb cb' ∈ pending w).
Proof.
  intros [_ _ _ _ [s Hs]] [Ha Hp].
  destruct s; simpl in Hs; destruct Hs as (Hpend & _).
  - rewrite Hpend in Ha. by apply list_elem_of_singleton in Ha.
  - rewrite Hpend in Ha. by apply elem_of_nil in Ha.
  - rewrite Hpend in Hp. by apply list_elem_of_singleton in Hp.
  - destruct Hpend as [pb0 Hpend]. rewrite Hpend in Ha.
    by apply list_elem_of_singleton in Ha.
  - by apply (proj1 (Forall_forall _ _) Hpend) in Ha.
Qed.

(** C6. In the history of any run, a play on a channel comes directly
    after the entry of the callback of the answer on that channel and the
    creation of the playback, and that answer was issued before; at no
    point of any run are an answer and a play on the same channel both
    outstanding. *)
Theorem play_follows_answer_completion ins pre ch media pb cb post :
  trace (run_inputs ins) = pre ++ Called (Play ch media pb cb) :: post →
  (∃ pre' ari,
     pre = pre' ++ [Invoked (OfErr (ChannelAnswerFn ari ch));
                    Called (NewPlayback pb)] ∧
     Called (Answer ch (ChannelAnswerFn ari ch)) ∈ pre')
  ∧ (∀ ins' cb0 media' pb' cb',
       ¬ (Answer ch cb0 ∈ pending (run_inputs ins') ∧
          Play ch media' pb' cb' ∈ pending (run_inputs ins'))).
Proof.
  intros Heq. split.
  - pose proof (run_inputs_ordered ins) as Hord.
    destruct (Hord _ _ _ Heq) as (_ & ari & pre' & ->).
    exists pre', ari. split; [done|].
    rewrite Heq in Hord. rewrite <- !app_assoc in Hord.
    apply (invoked_err_origin _ _ (ChannelAnswerFn ari ch) _ Hord eq_refl).
  - intros ins' cb0 media' pb' cb'.
    apply answer_and_play_not_both_pending, run_inputs_consistent.
Qed.

(** The history of a call whose answer has completed. *)
Lemma play_follows_answer_completion_witness :
  trace (run_inputs call_answered) =
    [Called (Connect "http://ari.js:8088" "user" "secret" ConnectFn);
     Invoked (OfConnect ConnectFn);
     Called (Once "StasisStart" (StasisStartFn sample_ari));
     Called (Start "playback-example");
     Invoked (OfEvent (StasisStartFn sample_ari));
     Called (Answer "c1" (ChannelAnswerFn sample_ari "c1"));
     Invoked (OfErr (ChannelAnswerFn sample_ari "c1"));
     Called (NewPlayback (PlaybackHandle 0))]
    ++ Called (Play "c1" "sound:demo-congrats" (PlaybackHandle 0) (PlayDoneFn "c1"))
    :: [] ∧
  ∃ pre' ari,
    [Called (Connect "http://ari.js:8088" "user" "secret" ConnectFn);
     Invoked (OfConnect ConnectFn);
     Called (Once "StasisStart" (StasisStartFn sample_ari));
     Called (Start "playback-example");
     Invoked (OfEvent (StasisStartFn sample_ari));
     Called (Answer "c1" (ChannelAnswerFn sample_ari "c1"));
     Invoked (OfErr (ChannelAnswerFn sample_ari "c1"));
     Called (NewPlayback (PlaybackHandle 0))]
    = pre' ++ [Invoked (OfErr (ChannelAnswerFn ari "c1"));
               Called (NewPlayback (PlaybackHandle 0))] ∧
    Called (Answer "c1" (ChannelAnswerFn ari "c1")) ∈ pre'.
Proof.
  split; [reflexivity|].
  exact (proj1 (play_follows_answer_completion call_answered _ "c1"
                  "sound:demo-congrats" (PlaybackHandle 0) (PlayDoneFn "c1") []
                  eq_refl)).
Defined.

(** C7. In the history of any run, the playback passed to a play was
    created by the factory directly before the play, was not created
    before that, and is registered; this is what the callback of the
    answer does on every world. *)
Theorem play_receives_fresh_playback ins pre ch media pb cb post :
  trace (run_inputs ins) = pre ++ Called (Play ch media pb cb) :: post →
  (∃ pre', pre = pre' ++ [Called (NewPlayback pb)] ∧
           Called (NewPlayback pb) ∉ pre')
  ∧ (∃ k, pb = PlaybackHandle k ∧ k < allocated (run_inputs ins))
  ∧ (∀ ari incoming err w,
       channelAnswerCallback ari incoming err w =
         (let playback := PlaybackHandle (allocated w) in
          let play := Play incoming "sound:demo-congrats" playback
                        (PlayDoneFn incoming) in
          (Some tt,
           set_pending (pending w ++ [play])
             (log (Called play)
                (set_allocated (S (allocated w))
                   (log (Called (NewPlayback playback)) w)))))).
Proof.
  intros Heq. pose proof (run_inputs_consistent ins) as Hcon.
  pose proof (con_ordered _ Hcon) as Hord.
  destruct (Hord _ _ _ Heq) as (_ & ari & pre' & ->).
  split_and!.
  - exists (pre' ++ [Invoked (OfErr (ChannelAnswerFn ari ch))]).
    split; [by rewrite <- app_assoc|].
    rewrite Heq in Hord.
    destruct (Hord (pre' ++ [Invoked (OfErr (ChannelAnswerFn ari ch))])
                (Called (NewPlayback pb)) (Called (Play ch media pb cb) :: post))
      as [Hfresh _]; [by rewrite <- !app_assoc|done].
  - destruct pb as [k]. exists k. split; [done|].
    apply (con_allocated _ Hcon). rewrite Heq.
    apply elem_of_app; left. apply elem_of_app; right. by repeat constructor.
  - done.
Qed.

(** The playback of the sample call is the first handle. *)
Lemma play_receives_fresh_playback_witness :
  trace (run_inputs call_answered) =
    [Called (Connect "http://ari.js:8088" "user" "secret" ConnectFn);
     Invoked (OfConnect ConnectFn);
     Called (Once "StasisStart" (StasisStartFn sample_ari));
     Called (Start "playback-example");
     Invoked (OfEvent (StasisStartFn sample_ari));
     Called (Answer "c1" (ChannelAnswerFn sample_ari "c1"));
     Invoked (OfErr (ChannelAnswerFn sample_ari "c1"));
     Called (NewPlayback (PlaybackHandle 0))]
    ++ Called (Play "c1" "sound:demo-congrats" (PlaybackHandle 0) (PlayDoneFn "c1"))
    :: [] ∧
  ∃ k, PlaybackHandle 0 = PlaybackHandle k ∧ k < allocated (run_inputs call_answered).
Proof.
  split; [reflexivity|].
  exact (proj1 (proj2 (play_receives_fresh_playback call_answered _ "c1"
                  "sound:demo-congrats" (PlaybackHandle 0) (PlayDoneFn "c1") []
                  eq_refl))).
Defined.

(** C8, as stated, fails: the connect of the script is not the connect of
    the spec given the application name, and no application is registered
    when it returns. *)
Lemma connect_registers_no_application :
  ¬ connect_as_specified ∧ apps boot = [].
Proof.
  split; [|reflexivity].
  intros H. apply (f_equal apps) in H. vm_compute in H. discriminate.
Qed.

(** C8, amended.  The connect call takes the server address, the user,
    the secret and the ready callback, and registers no application.  The
    ready callback registers the one application by a call of [start] of
    its own; in any run every [start] names that application and is made
    from the ready callback, after the connect. *)
Theorem application_started_by_ready_callback :
  boot = World [Called (Connect "http://ari.js:8088" "user" "secret" ConnectFn)]
               [Connect "http://ari.js:8088" "user" "secret" ConnectFn]
               [] 0 [] [] None
  ∧ (∀ err ari,
       let w := step boot (Complete 0 (RespClient err ari)) in
       trace w = trace boot ++
                 [Invoked (OfConnect ConnectFn);
                  Called (Once "StasisStart" (StasisStartFn ari));
                  Called (Start "playback-example")]
       ∧ apps w = ["playback-example"])
  ∧ (∀ ins app pre post,
       trace (run_inputs ins) = pre ++ Called (Start app) :: post →
       app = "playback-example" ∧
       ∃ pre' ari,
         pre = pre' ++ [Invoked (OfConnect ConnectFn);
                        Called (Once "StasisStart" (StasisStartFn ari))] ∧
         ∃ url user secret,
           Called (Connect url user secret ConnectFn) ∈ pre').
Proof.
  split_and!.
  - reflexivity.
  - intros err ari. by split.
  - intros ins app pre post Heq.
    pose proof (run_inputs_ordered ins) as Hord.
    destruct (Hord _ _ _ Heq) as (-> & ari & pre' & ->).
    split; [done|]. exists pre', ari. split; [done|].
    rewrite Heq in Hord. rewrite <- !app_assoc in Hord.
    destruct (Hord _ _ _ eq_refl) as (c & Hc & Hcb).
    destruct c; simpl in Hcb; try discriminate.
    injection Hcb as ->. eauto.
Qed.

(** C10. The callback of an outstanding [control] is the empty function:
    it returns without touching the world whatever error it is given.
    Completing the control with an error leaves the same world as
    completing it with success, so every later input has the same effect;
    the process keeps its exit status and nothing is written to the error
    stream.  Every [control] of any run carries that callback. *)
Theorem control_errors_are_ignored ins n pb operation cb :
  pending (run_inputs ins) !! n = Some (Control pb operation cb) →
  cb = ControlDoneFn
  ∧ (∀ err w, invoke_err cb err w = (Some tt, w))
  ∧ (∀ err,
       step (run_inputs ins) (Complete n (Resp (Some err))) =
       step (run_inputs ins) (Complete n (Resp None)))
  ∧ (∀ err rest,
       run_inputs (ins ++ Complete n (Resp (Some err)) :: rest) =
       run_inputs (ins ++ Complete n (Resp None) :: rest))
  ∧ (∀ err,
       let w := step (run_inputs ins) (Complete n (Resp err)) in
       exit_status w = exit_status (run_inputs ins) ∧
       stderr w = stderr (run_inputs ins))
  ∧ (∀ ins' pb' operation' cb',
       Called (Control pb' operation' cb') ∈ trace (run_inputs ins') →
       cb' = ControlDoneFn).
Proof.
  intros Hn.
  pose proof (pending_callback _ _ _ (run_inputs_consistent ins) Hn) as ->.
  assert (Hstep : ∀ err,
    step (run_inputs ins) (Complete n (Resp (Some err))) =
    step (run_inputs ins) (Complete n (Resp None))).
  { intros err. unfold step, complete. by rewrite Hn. }
  split_and!; try done.
  - intros err rest. by rewrite !run_inputs_app; simpl; rewrite Hstep.
  - intros err. unfold step, complete.
    destruct (exit_status (run_inputs ins)) eqn:Hexit; simpl; [by rewrite Hexit|].
    rewrite Hn. by simpl.
  - intros ins' pb' operation' cb' Hin.
    destruct (ordered_called _ _ (run_inputs_ordered ins') Hin) as [pre Hadm].
    by destruct Hadm.
Qed.

(** The pause of the sample session, timing out. *)
Lemma control_errors_are_ignored_witness :
  pending (run_inputs caller_session) !! 0 =
    Some (Control (PlaybackHandle 0) "pause" ControlDoneFn) ∧
  step (run_inputs caller_session) (Complete 0 (Resp (Some Timeout))) =
  step (run_inputs caller_session) (Complete 0 (Resp None)).
Proof.
  split; [reflexivity|].
  exact (proj1 (proj2 (proj2 (control_errors_are_ignored caller_session 0
           (PlaybackHandle 0) "pause" ControlDoneFn eq_refl))) Timeout).
Defined.

(** * Beyond the claims *)

(** ** Turns *)



Lemma set_listeners_same w : set_listeners (listeners w) w = w.
Proof. by destruct w. Qed.

Lemma step_turn w i :
  consistent w → exit_status w = None → turn w i (step w i).
Proof.
  intros Hcon Hexit. pose proof Hcon as [Hord Hpend Hlis Halloc [s Hs]].
  unfold step. rewrite Hexit.
  destruct s; pose proof Hs as Hs'; simpl in Hs';
    destruct Hs' as (Hp & Hl & Hst & Happ).
  - destruct i as [e ch|n r].
    + unfold dispatch. rewrite Hl. simpl. rewrite <- Hl, set_listeners_same.
      apply turn_idle.
    + unfold complete. rewrite Hp.
      destruct n as [|n], r as [err|err pb|err ari]; simpl;
        by econstructor.
  - destruct i as [e ch|n r].
    + unfold dispatch. rewrite Hl. cbn [List.filter].
      rewrite matches_start. case_bool_decide as He; cbn.
      * rewrite Hexit. by apply (turn_start w ari e ch).
      * rewrite <- Hl, set_listeners_same. apply turn_idle.
    + unfold complete. rewrite Hp. simpl. apply turn_idle.
  - destruct i as [e ch'|n r].
    + unfold dispatch. rewrite Hl. simpl. rewrite <- Hl, set_listeners_same.
      apply turn_idle.
    + unfold complete. rewrite Hp.
      destruct n as [|n], r as [err|err pb|err ari']; simpl;
        by econstructor.
  - destruct Hp as [pb0 Hp]. destruct i as [e ch'|n r].
    + unfold dispatch. rewrite Hl. simpl. rewrite <- Hl, set_listeners_same.
      apply turn_idle.
    + unfold complete. rewrite Hp.
      destruct n as [|n], r as [err|err pb|err ari']; simpl;
        by econstructor.
  - destruct i as [e ch'|n r].
    + unfold dispatch. rewrite Hl. cbn [List.filter].
      destruct (matches e ch' _) eqn:Hm; cbn.
      * apply andb_true_iff in Hm as [Hty Hm]. apply String.eqb_eq in Hm, Hty.
        simpl in Hm, Hty. subst ch'. rewrite Hexit.
        rewrite <- Hl, set_listeners_same. by apply (turn_dtmf w ch pb e).
      * rewrite <- Hl, set_listeners_same. apply turn_idle.
    + unfold complete.
      destruct (pending w !! n) as [c|] eqn:Hn; [|destruct r; apply turn_idle].
      pose proof (pending_callback _ _ _ Hcon Hn) as Hcb.
      assert (Hc : c ∈ pending w) by (by eapply list_elem_of_lookup_2).
      pose proof (proj1 (Forall_forall _ _) Hp c Hc) as Haw.
      destruct c; simpl in Haw; try done; subst cb;
        destruct r as [err|err pb'|err ari]; try apply turn_idle.
      * by eapply turn_controlled.
      * by eapply turn_hung_up.
Qed.

Lemma strict_eq_true v lit : strict_eq v lit = true → v = Some lit.
Proof.
  destruct v as [d|]; simpl; [|done]. intros H. by apply String.eqb_eq in H as ->.
Qed.

Lemma strict_eq_false_inv v lit : strict_eq v lit = false → v ≠ Some lit.
Proof.
  intros H ->. simpl in H. by rewrite String.eqb_refl in H.
Qed.

(** What the listener does, digit by digit. *)
Lemma dtmf_calls_cases playback incoming e :
  (∃ operation, operation ∈ control_operations ∧ event_digit e ≠ Some "#" ∧
     dtmf_calls playback incoming e = [Control playback operation ControlDoneFn])
  ∨ (event_digit e = Some "#" ∧
     dtmf_calls playback incoming e =
       [Control playback "stop" ControlDoneFn; Hangup incoming HangupDoneFn])
  ∨ ((∀ d, d ∈ assigned_digits → event_digit e ≠ Some d) ∧
     dtmf_calls playback incoming e =
       [ConsoleError ("Unknown DTMF " +:+ js_String (event_digit e))]).
Proof.
  unfold dtmf_calls, channelDtmfReceivedCallback.
  destruct (strict_eq _ "5") eqn:H5.
  { left. exists "pause". apply strict_eq_true in H5 as ->.
    split_and!; [by repeat constructor|done|done]. }
  destruct (strict_eq _ "8") eqn:H8.
  { left. exists "unpause". apply strict_eq_true in H8 as ->.
    split_and!; [by repeat constructor|done|done]. }
  destruct (strict_eq _ "4") eqn:H4.
  { left. exists "reverse". apply strict_eq_true in H4 as ->.
    split_and!; [by repeat constructor|done|done]. }
  destruct (strict_eq _ "6") eqn:H6.
  { left. exists "forward". apply strict_eq_true in H6 as ->.
    split_and!; [by repeat constructor|done|done]. }
  destruct (strict_eq _ "2") eqn:H2.
  { left. exists "restart". apply strict_eq_true in H2 as ->.
    split_and!; [by repeat constructor|done|done]. }
  destruct (strict_eq _ "#") eqn:Hh.
  { right. left. apply strict_eq_true in Hh as ->. done. }
  right. right. split.
  - intros d Hd. unfold assigned_digits in Hd.
    repeat (apply elem_of_cons in Hd as [->|Hd];
            [by apply strict_eq_false_inv|]).
    by apply elem_of_nil in Hd.
  - rewrite util_format_unknown. reflexivity.
Qed.

Lemma listener_issues playback incoming e ch w :
  channelDtmfReceivedCallback playback incoming e ch w =
    (Some tt, issue_all (dtmf_calls playback incoming e) w).
Proof.
  unfold dtmf_calls, channelDtmfReceivedCallback.
  repeat (destruct (strict_eq _ _)); reflexivity.
Qed.

(** ** The profile of a run *)

Lemma in_stage_inj s s' w : in_stage s w → in_stage s' w → s = s'.
Proof.
  destruct s, s'; simpl; intros (Hp & Hl & _) (Hp' & Hl' & _);
    repeat match goal with H : ∃ _, _ |- _ => destruct H end;
    congruence.
Qed.

Lemma calls_snoc P t e :
  calls P (t ++ [e]) = (calls P t + if called_with P e then 1 else 0)%nat.
Proof.
  unfold calls. rewrite List.filter_app, length_app. simpl.
  by destruct (called_with P e).
Qed.

Lemma channels_used_snoc t e :
  channels_used (t ++ [e]) = channels_used t ++ option_list (entry_channel e).
Proof. unfold channels_used. rewrite omap_app. simpl. by destruct (entry_channel e). Qed.

Lemma controlled_snoc t e :
  controlled (t ++ [e]) = controlled t ++ option_list (entry_controlled e).
Proof. unfold controlled. rewrite omap_app. simpl. by destruct (entry_controlled e). Qed.

(** Count the calls of an extended history. *)
Ltac tallies :=
  unfold tally;
  rewrite ?calls_snoc, ?channels_used_snoc, ?controlled_snoc; simpl;
  rewrite ?app_nil_r, ?Nat.add_0_r.

Lemma boot_profile : profile boot.
Proof.
  split.
  - intros type cb H. apply list_elem_of_singleton in H. discriminate.
  - constructor.
  - exists Booting. by vm_compute.
Qed.

Lemma turn_profile w i w' :
  consistent w → profile w → turn w i w' → profile w'.
Proof.
  intros Hcon [Honce Herr (s & Hs & Hpro)] Hturn.
  destruct Hturn as [i|err ari Hst|ari e ch Hst He|ari ch err Hst|ch err pb Hst
                    |ch pb e Hst He|ch pb n pb' op err Hst Hn|ch pb n ch' err Hst Hn];
    [by split; eauto|..];
    pose proof (in_stage_inj _ _ _ Hs Hst) as ->; clear Hs;
    destruct w as [t p ls a ap se ex]; simpl in *.
  - destruct Hst as (-> & -> & Hstarts & ->). destruct Hpro as (Hch & Hctl & Htal & ->).
    script. split; simpl.
    + intros type cb H. once_cases H Honce.
    + done.
    + exists (Waiting ari). split; simpl; [by rewrite !starts_snoc, Hstarts|].
      tallies. rewrite Hch, Hctl. unfold tally in Htal.
      injection Htal as -> -> -> ->. done.
  - destruct Hst as (-> & -> & Hstarts & ->). destruct Hpro as (Hch & Hctl & Htal & ->).
    script. split; simpl.
    + intros type cb H. once_cases H Honce.
    + done.
    + exists (Answering ari ch). split; simpl; [by rewrite !starts_snoc, Hstarts|].
      tallies. rewrite Hch, Hctl. unfold tally in Htal.
      injection Htal as -> -> -> ->. done.
  - destruct Hst as (-> & -> & Hstarts & ->). destruct Hpro as (Hch & Hctl & Htal & ->).
    script. split; simpl.
    + intros type cb H. once_cases H Honce.
    + done.
    + exists (Playing ch). split; simpl.
      { rewrite !starts_snoc, Hstarts. simpl. eauto. }
      tallies. rewrite Hch, Hctl. unfold tally in Htal.
      injection Htal as -> -> -> ->. done.
  - destruct Hst as ([pb0 ->] & -> & Hstarts & ->).
    destruct Hpro as (Hch & Hctl & Htal & ->).
    script. split; simpl.
    + intros type cb H. once_cases H Honce.
    + done.
    + exists (Serving ch pb). split; simpl; [by rewrite !starts_snoc, Hstarts|].
      tallies. rewrite Hch, Hctl. unfold tally in Htal.
      injection Htal as -> -> -> ->. split_and!; try done.
      by repeat constructor.
  - destruct Hst as (Hp & -> & Hstarts & ->). destruct Hpro as (Hch & Hctl & Htal & _).
    unfold enter, run. rewrite listener_issues.
    destruct (dtmf_calls_cases pb ch e)
      as [(op & Hop & _ & ->)|[[_ ->]|[_ ->]]]; script; split; simpl.
    + intros type cb H. once_cases H Honce.
    + done.
    + exists (Serving ch pb). split; simpl.
      { rewrite !starts_snoc, Hstarts. split_and!; try done.
        apply Forall_app. split; [done|]. by repeat constructor. }
      tallies. unfold tally in Htal. injection Htal as -> -> -> ->.
      split_and!; try done. apply Forall_app. split; [done|by repeat constructor].
    + intros type cb H. once_cases H Honce.
    + done.
    + exists (Serving ch pb). split; simpl.
      { rewrite !starts_snoc, Hstarts. split_and!; try done.
        rewrite <- app_assoc. apply Forall_app. split; [done|]. by repeat constructor. }
      tallies. unfold tally in Htal. injection Htal as -> -> -> ->.
      split_and!; try done.
      * apply Forall_app. split; [done|by repeat constructor].
      * apply Forall_app. split; [done|by repeat constructor].
    + intros type cb H. once_cases H Honce.
    + apply Forall_app. split; [done|]. repeat constructor. by eexists.
    + exists (Serving ch pb). split; simpl.
      { by rewrite !starts_snoc, Hstarts. }
      tallies. unfold tally in Htal. injection Htal as -> -> -> ->. done.
  - destruct Hst as (Hp & -> & Hstarts & ->). destruct Hpro as (Hch & Hctl & Htal & _).
    script. split; simpl.
    + intros type cb H. once_cases H Honce.
    + done.
    + exists (Serving ch pb). split; simpl.
      { rewrite !starts_snoc, Hstarts. split_and!; try done. by apply Forall_delete. }
      tallies. unfold tally in Htal. injection Htal as -> -> -> ->. done.
  - destruct Hst as (Hp & -> & Hstarts & ->). destruct Hpro as (Hch & Hctl & Htal & _).
    script. split; simpl.
    + intros type cb H. once_cases H Honce.
    + done.
    + exists (Serving ch pb). split; simpl.
      { rewrite !starts_snoc, Hstarts. split_and!; try done. by apply Forall_delete. }
      tallies. unfold tally in Htal. injection Htal as -> -> -> ->. done.
Qed.

Lemma step_profile w i : consistent w → profile w → profile (step w i).
Proof.
  intros Hcon Hpro. destruct (exit_status w) as [code|] eqn:Hexit.
  - by rewrite (step_exited w i code).
  - eapply turn_profile; [done..|by apply step_turn].
Qed.

Lemma foldl_step_profile ins w :
  consistent w → profile w → profile (foldl step w ins).
Proof.
  revert w. induction ins as [|i ins IH]; intros w Hcon Hpro; [done|].
  simpl. apply IH; [by apply step_consistent|by apply step_profile].
Qed.

Lemma run_inputs_profile ins : profile (run_inputs ins).
Proof. apply foldl_step_profile; [apply boot_consistent|apply boot_profile]. Qed.

(** ** Events *)

Lemma serving_by_listener w ch pb :
  consistent w → listeners w = [dtmf_listener ch pb] → in_stage (Serving ch pb) w.
Proof.
  intros [_ _ _ _ [s Hs]] Hl.
  destruct s; pose proof Hs as (Hp & Hl' & _); rewrite Hl in Hl';
    try discriminate Hl'.
  by injection Hl' as <- <-.
Qed.

Lemma waiting_by_listener w ari :
  consistent w → listeners w = [start_listener ari] → in_stage (Waiting ari) w.
Proof.
  intros [_ _ _ _ [s Hs]] Hl.
  destruct s; pose proof Hs as (Hp & Hl' & _); rewrite Hl in Hl';
    try discriminate Hl'.
  by injection Hl' as <-.
Qed.




Lemma issue_all_spec cs w :
  trace (issue_all cs w) = trace w ++ map Called cs ∧
  pending (issue_all cs w) = pending w ++ List.filter is_request cs ∧
  listeners (issue_all cs w) = listeners w ∧
  exit_status (issue_all cs w) = exit_status w.
Proof.
  revert w. induction cs as [|c cs IH]; intros w.
  - simpl. by rewrite !app_nil_r.
  - unfold issue_all. simpl. fold (issue_all cs (run (issue c) w)).
    destruct (IH (run (issue c) w)) as (-> & -> & -> & ->).
    destruct c; cbn; by rewrite <- ?app_assoc.
Qed.

Lemma step_keeps_dtmf_listener w i ch pb :
  consistent w → listeners w = [dtmf_listener ch pb] →
  listeners (step w i) = [dtmf_listener ch pb].
Proof.
  intros Hcon Hl. destruct (exit_status w) as [code|] eqn:Hexit.
  { by rewrite (step_exited w i code). }
  destruct (step_turn w i Hcon Hexit)
    as [i|err ari Hst|ari e ch0 Hst He|ari ch0 err Hst|ch0 err pb0 Hst
       |ch0 pb0 e Hst He|ch0 pb0 n pb' op err Hst Hn|ch0 pb0 n ch' err Hst Hn];
    try done;
    try (destruct Hst as (_ & Hl' & _); rewrite Hl in Hl'; discriminate Hl').
  unfold enter, run. rewrite listener_issues. cbn.
  by destruct (issue_all_spec (dtmf_calls pb0 ch0 e)
                 (log (Invoked (OfEvent (DtmfFn pb0 ch0))) w)) as (_ & _ & -> & _).
Qed.

Lemma dtmf_listener_kept ins ins' ch pb :
  listeners (run_inputs ins) = [dtmf_listener ch pb] →
  listeners (run_inputs (ins ++ ins')) = [dtmf_listener ch pb].
Proof.
  intros Hl. rewrite run_inputs_app.
  pose proof (run_inputs_consistent ins) as Hcon.
  revert Hl Hcon. generalize (run_inputs ins).
  induction ins' as [|i ins' IH]; intros w Hl Hcon; [done|].
  simpl. apply IH; [by apply step_keeps_dtmf_listener|by apply step_consistent].
Qed.








(** X4. A run serves one call: whatever arrives, the script issues at most
    one answer, creates at most one playback, issues at most one play and
    registers at most one DTMF listener, and every answer, play, listener
    registration and hangup of the run is on one and the same channel. *)
Theorem one_call_per_run ins :
  let t := trace (run_inputs ins) in
  (calls is_answer t ≤ 1)%nat ∧ (calls is_new_playback t ≤ 1)%nat ∧
  (calls is_play t ≤ 1)%nat ∧ (calls is_on t ≤ 1)%nat ∧
  ∀ ch ch', ch ∈ channels_used t → ch' ∈ channels_used t → ch = ch'.
Proof.
  destruct (run_inputs_profile ins) as [_ _ (s & Hs & Hpro)]. simpl.
  assert (Hsame : ∀ ch0 (l : list channel), Forall (eq ch0) l →
            ∀ ch ch', ch ∈ l → ch' ∈ l → ch = ch').
  { intros ch0 l Hl ch ch' Hch Hch'.
    rewrite Forall_forall in Hl. by rewrite <- (Hl _ Hch), <- (Hl _ Hch'). }
  destruct s; simpl in Hpro; destruct Hpro as (Hch & _ & Htal & _);
    unfold tally in Htal; injection Htal as -> -> -> ->;
    (split_and!; [lia..|]).
  - rewrite Hch. intros ch ch' H. by apply elem_of_nil in H.
  - rewrite Hch. intros ch ch' H. by apply elem_of_nil in H.
  - rewrite Hch. apply (Hsame ch). by repeat constructor.
  - rewrite Hch. apply (Hsame ch). by repeat constructor.
  - by apply (Hsame ch).
Qed.


Lemma control_in_controlled t pb operation cb :
  Called (Control pb operation cb) ∈ t → pb ∈ controlled t.
Proof.
  intros H. unfold controlled. apply list_elem_of_omap.
  by exists (Called (Control pb operation cb)).
Qed.

(** X5. The listener controls the playback that the completion of the play
    hands to the callback of lines 64-66, whose argument shadows the
    variable of line 58: once an outstanding play completes with a playback,
    every control of the run is sent to that playback, whether or not it
    is the one the script created and passed to the play. *)
Theorem controls_go_to_delivered_playback
    ins n ch media created cb err delivered rest pb operation cb' :
  pending (run_inputs ins) !! n = Some (Play ch media created cb) →
  Called (Control pb operation cb')
    ∈ trace (run_inputs (ins ++ Complete n (RespPlayback err delivered) :: rest)) →
  pb = delivered.
Proof.
  intros Hn Hin.
  pose proof (run_inputs_consistent ins) as Hcon.
  destruct (run_inputs_profile ins) as [_ _ (s & Hs & Hpro)].
  assert (Hc : Play ch media created cb ∈ pending (run_inputs ins))
    by (by eapply list_elem_of_lookup_2).
  assert (s = Playing ch ∧ n = 0 ∧ cb = PlayDoneFn ch) as (-> & -> & ->).
  { destruct s; pose proof Hs as (Hp & _).
    - rewrite Hp in Hc. by apply list_elem_of_singleton in Hc.
    - rewrite Hp in Hc. by apply elem_of_nil in Hc.
    - rewrite Hp in Hc. by apply list_elem_of_singleton in Hc.
    - destruct Hp as [pb0 Hp]. rewrite Hp in Hc, Hn.
      apply list_elem_of_singleton in Hc. injection Hc as -> -> -> ->.
      destruct n; [done|]. simpl in Hn. by rewrite lookup_nil in Hn.
    - by apply (proj1 (Forall_forall _ _) Hp) in Hc. }
  destruct Hpro as (_ & _ & _ & Hexit).
  set (w1 := step (run_inputs ins) (Complete 0 (RespPlayback err delivered))).
  assert (Hl : listeners w1 = [dtmf_listener ch delivered]).
  { unfold w1, step, complete. rewrite Hexit, Hn.
    destruct Hs as (_ & Hl & _). cbn. by rewrite Hl. }
  change (ins ++ ?i :: rest) with (ins ++ [i] ++ rest) in Hin.
  rewrite app_assoc in Hin.
  pose proof (dtmf_listener_kept (ins ++ [Complete 0 (RespPlayback err delivered)]) rest ch delivered) as Hkeep.
  rewrite run_inputs_snoc in Hkeep. specialize (Hkeep Hl).
  pose proof (serving_by_listener _ _ _ (run_inputs_consistent _) Hkeep) as Hserv.
  destruct (run_inputs_profile ((ins ++ [Complete 0 (RespPlayback err delivered)]) ++ rest))
    as [_ _ (s & Hs' & Hpro)].
  rewrite (in_stage_inj _ _ _ Hs' Hserv) in Hpro.
  destruct Hpro as (_ & Hctl & _).
  apply control_in_controlled in Hin.
  by rewrite (proj1 (Forall_forall _ _) Hctl _ Hin).
Qed.

(** The play completes with the playback 7 although the script created the
    playback 0: the pause goes to 7. *)
Lemma controls_go_to_delivered_playback_witness :
  pending (run_inputs call_answered) !! 0 =
    Some (Play "c1" "sound:demo-congrats" (PlaybackHandle 0) (PlayDoneFn "c1"))
  ∧ Called (Control (PlaybackHandle 7) "pause" ControlDoneFn)
      ∈ trace (run_inputs other_playback_session)
  ∧ PlaybackHandle 7 = PlaybackHandle 7.
Proof.
  assert (H1 : pending (run_inputs call_answered) !! 0 =
    Some (Play "c1" "sound:demo-congrats" (PlaybackHandle 0) (PlayDoneFn "c1")))
    by reflexivity.
  assert (H2 : Called (Control (PlaybackHandle 7) "pause" ControlDoneFn)
      ∈ trace (run_inputs (call_answered ++
                 Complete 0 (RespPlayback None (PlaybackHandle 7))
                 :: [ServerEvent (dtmf "5") "c1"]))).
  { vm_compute. by repeat constructor. }
  split_and!; [exact H1|exact H2|].
  exact (controls_go_to_delivered_playback call_answered 0 "c1"
           "sound:demo-congrats" (PlaybackHandle 0) (PlayDoneFn "c1") None
           (PlaybackHandle 7) [ServerEvent (dtmf "5") "c1"]
           (PlaybackHandle 7) "pause" ControlDoneFn H1 H2).
Defined.

(** What comes before an entry of the DTMF listener. *)
Lemma dtmf_entry_origin t pre pb ch post :
  ordered t →
  (∀ type cb, Called (Once type cb) ∈ t →
     type = "StasisStart" ∧ ∃ ari, cb = StasisStartFn ari) →
  t = pre ++ Invoked (OfEvent (DtmfFn pb ch)) :: post →
  ∃ ari media created p1 p2 p3 p4,
    pre = p1 ++ Called (Answer ch (ChannelAnswerFn ari ch))
             :: p2 ++ Called (Play ch media created (PlayDoneFn ch))
             :: p3 ++ Called (On ch "ChannelDtmfReceived" (DtmfFn pb ch))
             :: p4.
Proof.
  intros Hord Honce ->.
  destruct (Hord _ _ _ eq_refl) as (c & Hc & Hcb).
  assert (Hpre : ordered pre) by (by eapply ordered_prefix).
  destruct c; simpl in Hcb; try discriminate; injection Hcb as ->.
  { destruct (Honce type (DtmfFn pb ch)) as (_ & ari & Hari); [|discriminate].
    apply elem_of_app. by left. }
  apply list_elem_of_split in Hc as (q & p4 & ->).
  destruct (Hpre _ _ _ eq_refl) as (-> & pb' & Heq & q' & ->).
  injection Heq as <- ->.
  apply ordered_prefix in Hpre.
  destruct (Hpre _ _ _ eq_refl) as (c & Hc & Hcb).
  apply ordered_prefix in Hpre.
  destruct c; simpl in Hcb; try discriminate; injection Hcb as ->.
  apply list_elem_of_split in Hc as (r & p3 & ->).
  destruct (Hpre _ _ _ eq_refl) as (Heq & ari & r' & ->).
  injection Heq as ->.
  apply ordered_prefix in Hpre.
  pose proof (invoked_err_origin _ _ (ChannelAnswerFn ari ch) _ Hpre eq_refl)
    as Ha.
  apply list_elem_of_split in Ha as (p1 & p2 & ->).
  exists ari, media, pb0, p1,
    (p2 ++ [Invoked (OfErr (ChannelAnswerFn ari ch)); Called (NewPlayback pb0)]),
    (p3 ++ [Invoked (OfPlay (PlayDoneFn ch))]), p4.
  by rewrite <- !app_assoc.
Qed.

(** X9. In the history of any run, an entry of the DTMF listener for a
    channel comes after, in this order, the answer on that channel, the
    play on it and the registration of that very listener on it. *)
Theorem listener_runs_after_answer_play_registration ins pre pb ch post :
  trace (run_inputs ins) = pre ++ Invoked (OfEvent (DtmfFn pb ch)) :: post →
  ∃ ari media created p1 p2 p3 p4,
    pre = p1 ++ Called (Answer ch (ChannelAnswerFn ari ch))
             :: p2 ++ Called (Play ch media created (PlayDoneFn ch))
             :: p3 ++ Called (On ch "ChannelDtmfReceived" (DtmfFn pb ch))
             :: p4.
Proof.
  intros Heq. eapply dtmf_entry_origin; [apply run_inputs_ordered| |done].
  apply run_inputs_profile.
Qed.

(** The pause of the sample session: entry 11 of its history. *)
Lemma listener_runs_after_answer_play_registration_witness :
  trace (run_inputs caller_session) =
    take 11 (trace (run_inputs caller_session))
    ++ Invoked (OfEvent (DtmfFn (PlaybackHandle 0) "c1"))
    :: drop 12 (trace (run_inputs caller_session))
  ∧ ∃ ari media created p1 p2 p3 p4,
      take 11 (trace (run_inputs caller_session)) =
        p1 ++ Called (Answer "c1" (ChannelAnswerFn ari "c1"))
           :: p2 ++ Called (Play "c1" media created (PlayDoneFn "c1"))
           :: p3 ++ Called (On "c1" "ChannelDtmfReceived"
                               (DtmfFn (PlaybackHandle 0) "c1"))
           :: p4.
Proof.
  split; [reflexivity|].
  exact (listener_runs_after_answer_play_registration caller_session
           (take 11 (trace (run_inputs caller_session))) (PlaybackHandle 0) "c1"
           (drop 12 (trace (run_inputs caller_session))) eq_refl).
Defined.

(** X10. In the history of any run, a hangup is issued by the DTMF
    listener directly after the stop it sent to its playback, carries the
    exiting callback, and is on a channel the script answered before. *)
Theorem hangup_follows_stop_on_answered_channel ins pre ch cb post :
  trace (run_inputs ins) = pre ++ Called (Hangup ch cb) :: post →
  cb = HangupDoneFn ∧
  ∃ pre' pb ari,
    pre = pre' ++ [Invoked (OfEvent (DtmfFn pb ch));
                   Called (Control pb "stop" ControlDoneFn)] ∧
    Called (Answer ch (ChannelAnswerFn ari ch)) ∈ pre'.
Proof.
  intros Heq. pose proof (run_inputs_ordered ins) as Hord.
  destruct (Hord _ _ _ Heq) as (-> & pb & pre' & ->).
  split; [done|]. 
  rewrite <- app_assoc in Heq.
  destruct (dtmf_entry_origin _ _ _ _ _ Hord (pro_once _ (run_inputs_profile ins)) Heq)
    as (ari & media & created & p1 & p2 & p3 & p4 & ->).
  eexists _, pb, ari. split; [done|].
  apply elem_of_app. right. by left.
Qed.

(** The hangup of the sample session: the last entry of its history. *)
Lemma hangup_follows_stop_on_answered_channel_witness :
  trace (run_inputs caller_session) =
    take 17 (trace (run_inputs caller_session))
    ++ Called (Hangup "c1" HangupDoneFn) :: []
  ∧ HangupDoneFn = HangupDoneFn
  ∧ ∃ pre' pb ari,
      take 17 (trace (run_inputs caller_session)) =
        pre' ++ [Invoked (OfEvent (DtmfFn pb "c1"));
                 Called (Control pb "stop" ControlDoneFn)]
      ∧ Called (Answer "c1" (ChannelAnswerFn ari "c1")) ∈ pre'.
Proof.
  split; [reflexivity|].
  exact (hangup_follows_stop_on_answered_channel caller_session
           (take 17 (trace (run_inputs caller_session))) "c1" HangupDoneFn []
           eq_refl).
Defined.
